(** * Encounter generation, NPC encounters, quests and commands of rpg-cli

    A shallow embedding of [src/character/enemy.rs], [src/character/npc.rs],
    [src/quest/defeat_guardian.rs], [src/quest/find_amulet.rs] and the
    combat / encounter commands of [src/command.rs].

    Conventions of the embedding:
    - the source's [i32] values (levels, distance lengths, gold, bet amounts)
      are modelled as [Z]; where an operand comes from the command line
      ([bet]'s amount, [idkfa]'s level) the [i32] arithmetic is written out,
      with its overflow: a panic in a debug build, a wrap-around in a release
      build; the other values (path depths, character levels) stay far from
      the [i32] bounds;
    - every draw of the randomizer (and of [rand::thread_rng]) is an explicit
      argument: the function is evaluated for each possible outcome of the
      draw;
    - a Rust panic (an [unwrap] on [None], indexing an empty [Vec]) is the
      [None] of an outer [option]. *)

From Stdlib Require Import ZArith String Ascii List Bool Lia Permutation.
Import ListNotations.
Open Scope string_scope.
Open Scope Z_scope.

(* ------------------------------------------------------------------ *)
(** ** Data model *)

(** [character::class::Category]. *)
Inductive Category := Player | Common | Rare | Legendary.

(** [character::class::Class]: a name, a category and the
    [(base, growth)] pairs of the three stats. *)
Record Class := mkClass {
  name : string;
  category : Category;
  hp : Z * Z;
  strength : Z * Z;
  speed : Z * Z
}.

(** [item::ring::Ring], the variants the encounter code inspects; every
    other ring behaves like [Void] for these functions. *)
Inductive Ring := Void | Evade | Ruling | OtherRing.

Definition ring_eqb (a b : Ring) : bool :=
  match a, b with
  | Void, Void | Evade, Evade | Ruling, Ruling | OtherRing, OtherRing => true
  | _, _ => false
  end.

(** [Option<Ring> == Some(r)]. *)
Definition slot_is (slot : option Ring) (r : Ring) : bool :=
  match slot with Some r' => ring_eqb r' r | None => false end.

(** [character::Character], the fields read by the encounter code. *)
Record Character := mkCharacter {
  class : Class;
  level : Z;
  left_ring : option Ring;
  right_ring : option Ring
}.

(** Modelled from the spec: [Character::new] (character/mod.rs is not part
    of the sources): a character of the given class snapshot and level,
    with both ring slots empty. *)
Definition Character_new (c : Class) (lvl : Z) : Character :=
  {| class := c; level := lvl; left_ring := None; right_ring := None |}.

(** [Character::name]: the name of the character's class. *)
Definition Character_name (ch : Character) : string := name (class ch).

(** Modelled from the spec: [Character::enemies_evaded] (character/mod.rs is
    not part of the sources). "Evasion active holds iff either slot
    currently holds the Evade ring." *)
Definition enemies_evaded (ch : Character) : bool :=
  slot_is (left_ring ch) Evade || slot_is (right_ring ch) Evade.

(** [location::Location] as the encounter code sees it: whether it is the
    home directory, whether it is the game's data directory, and
    [distance_from_home().len()]. *)
Record Location := mkLocation {
  is_home : bool;
  is_rpg_dir : bool;
  distance_len : Z
}.

(** The static class table, as the encounter code queries it:
    [Class::player_first()], [Class::player_by_name] and [Class::enemies()].
    [player_first] is [None] when the table has no player class (its
    [unwrap] then panics). *)
Record Catalog := mkCatalog {
  player_first : option Class;
  player_by_name : string -> option Class;
  enemies : list Class
}.

(** The outcomes of the random draws made by one call of [enemy::spawn]:
    [should_enemy_appear], the two [gen_ratio(1, 10)] of the shadow and dev
    spawns, the index of the family picked by [choose] and the level jitter
    [enemy_level]. *)
Record Rolls := mkRolls {
  appear : bool;
  shadow_roll : bool;
  dev_roll : bool;
  family_pick : nat;
  enemy_level : Z -> Z
}.

(* ------------------------------------------------------------------ *)
(** ** [character/enemy.rs] *)

(** [spawn_gorthaur]. *)
Definition spawn_gorthaur (cat : Catalog) (player : Character) (loc : Location)
  : option (option (Class * Z)) :=
  let wearing_ring :=
    slot_is (left_ring player) Ruling || slot_is (right_ring player) Ruling in
  if wearing_ring && (100 <=? distance_len loc) then
    match player_first cat with
    | None => None
    | Some c =>
        let c := {| name := "gorthaur";
                    category := Legendary;
                    hp := (fst (hp c) * 2, snd (hp c));
                    strength := (fst (strength c) * 2, snd (strength c));
                    speed := speed c |} in
        Some (Some (c, level player))
    end
  else Some None.

(** [spawn_shadow]; [roll] is the outcome of [rng.gen_ratio(1, 10)]. *)
Definition spawn_shadow (roll : bool) (player : Character) (loc : Location)
  : option (Class * Z) :=
  if is_home loc && roll then
    let c := class player in
    Some ({| name := "shadow"; category := Rare; hp := hp c;
             strength := strength c; speed := speed c |}, level player + 3)
  else None.

(** [spawn_dev]; [roll] is the outcome of [rng.gen_ratio(1, 10)].  Rust's
    [/=] on [i32] truncates: [Z.quot]. *)
Definition spawn_dev (cat : Catalog) (roll : bool) (player : Character)
  (loc : Location) : option (option (Class * Z)) :=
  if is_rpg_dir loc && roll then
    match player_first cat with
    | None => None
    | Some c =>
        let c := {| name := "dev";
                    category := Rare;
                    hp := (Z.quot (fst (hp c)) 2, snd (hp c));
                    strength := (Z.quot (fst (strength c)) 2, snd (strength c));
                    speed := (Z.quot (fst (speed c)) 2, snd (speed c)) |} in
        Some (Some (c, level player))
    end
  else Some None.

(** [enemy.name.split(' ').next().unwrap()]: the name up to its first
    space. *)
Fixpoint base_name (s : string) : string :=
  match s with
  | EmptyString => EmptyString
  | String ch rest =>
      if Ascii.eqb ch " "%char then EmptyString else String ch (base_name rest)
  end.

(** [enemy_groups.entry(base_name).or_default().push(enemy)] on the map of
    families, kept as an association list from base name to the family's
    variants in catalog order. *)
Fixpoint push_entry (k : string) (e : Class) (groups : list (string * list Class))
  : list (string * list Class) :=
  match groups with
  | [] => [(k, [e])]
  | (k', es) :: rest =>
      if String.eqb k k' then (k', (es ++ [e])%list) :: rest
      else (k', es) :: push_entry k e rest
  end.

(** The [for enemy in enemies] loop that fills [enemy_groups]. *)
Definition enemy_groups (enemies : list Class) : list (string * list Class) :=
  fold_left (fun groups e => push_entry (base_name (name e)) e groups) enemies [].

(** The [level_req] of the filter in [spawn_random]. *)
Definition level_req (c : Category) : Z :=
  match c with
  | Common => 1
  | Rare => 5
  | Legendary => 10
  | _ => 1
  end.

(** [Iterator::max_by_key(|e| e.hp.0)]: Rust's [max_by] keeps the later
    element unless the earlier one is strictly greater, so among equal
    keys the last one wins. *)
Definition max_by_hp (l : list Class) : option Class :=
  fold_left
    (fun acc e =>
       match acc with
       | None => Some e
       | Some m => if fst (hp m) >? fst (hp e) then Some m else Some e
       end) l None.

(** The variant picked within a family:
    [.filter(player_level >= level_req).max_by_key(hp.0).unwrap_or(&group[0])];
    [None] when [group[0]] is out of bounds (a panic). *)
Definition choose_variant (player_level : Z) (group : list Class) : option Class :=
  match max_by_hp (filter (fun e => player_level >=? level_req (category e)) group) with
  | Some e => Some e
  | None => nth_error group 0
  end.

(** [spawn_random].  [pick] is the index, among the map's keys, of the key
    returned by [enemy_groups.keys().choose(&mut rng)]; [choose] returns
    [None] only on an empty map, whose [unwrap] panics. *)
Definition spawn_random (enemies : list Class) (pick : nat) (player : Character)
  (distance_len : Z) : option (Class * Z) :=
  match nth_error (enemy_groups enemies) pick with
  | None => None
  | Some (_, enemy_group) =>
      match choose_variant (level player) enemy_group with
      | None => None
      | Some enemy =>
          let lvl := Z.max (Z.quot (level player) 10 + distance_len - 1) 1 in
          Some (enemy, lvl)
      end
  end.

(** [npc::Encounter]. *)
Inductive Encounter := Gambler | Witch | GhostlyMaiden.

(** [item::Potion], the only item the encounter commands create. *)
Inductive Item := Potion (lvl : Z).

(** [game::Game], the fields read or written by the functions embedded
    here; [quest_list] is [game.quests.list()], the
    [(completed, description)] pair of every quest. *)
Record Game := mkGame {
  player : Character;
  location : Location;
  quest_list : list (bool * string);
  gold : Z;
  in_combat : option Character;
  in_encounter : option Encounter
}.

Definition set_gold (g : Game) (v : Z) : Game :=
  {| player := player g; location := location g; quest_list := quest_list g;
     gold := v; in_combat := in_combat g; in_encounter := in_encounter g |}.

Definition set_in_combat (g : Game) (v : option Character) : Game :=
  {| player := player g; location := location g; quest_list := quest_list g;
     gold := gold g; in_combat := v; in_encounter := in_encounter g |}.

Definition set_in_encounter (g : Game) (v : option Encounter) : Game :=
  {| player := player g; location := location g; quest_list := quest_list g;
     gold := gold g; in_combat := in_combat g; in_encounter := v |}.

(** [game.quests.list().iter().any(|(completed, description)|
      !completed && description == "Defeat the Guardian.")]. *)
Definition guardian_quest_unlocked (quests : list (bool * string)) : bool :=
  existsb (fun '(completed, description) =>
             negb completed && String.eqb description "Defeat the Guardian.")
          quests.

(** The [(class, level)] pair bound in [spawn] once an enemy appears:
    the guardian, else the first special spawn that fires, else
    [spawn_random]. *)
Definition spawn_choice (cat : Catalog) (r : Rolls) (g : Game) : option (Class * Z) :=
  let player := player g in
  let location := location g in
  if guardian_quest_unlocked (quest_list g) && (distance_len location >? 10) then
    match player_by_name cat "guardian" with
    | None => None
    | Some c => Some (c, level player + 5)
    end
  else
    match spawn_gorthaur cat player location with
    | None => None
    | Some (Some p) => Some p
    | Some None =>
        match spawn_shadow (shadow_roll r) player location with
        | Some p => Some p
        | None =>
            match spawn_dev cat (dev_roll r) player location with
            | None => None
            | Some (Some p) => Some p
            | Some None =>
                spawn_random (enemies cat) (family_pick r) player (distance_len location)
            end
        end
    end.

(** [enemy::spawn]: [Some None] is "no enemy", [None] a panic. *)
Definition spawn (cat : Catalog) (r : Rolls) (g : Game) : option (option Character) :=
  if enemies_evaded (player g) then Some None
  else if appear r then
    match spawn_choice cat r g with
    | None => None
    | Some (c, lvl) => Some (Some (Character_new c (enemy_level r lvl)))
    end
  else Some None.

(* ------------------------------------------------------------------ *)
(** ** [character/npc.rs] *)

(** [npc::spawn]; [appear] is [should_enemy_appear(distance)] and [pick]
    the result of [random().range(3)]. *)
Definition npc_spawn (appear : bool) (pick : Z) (game : Game) : Game :=
  if appear then
    let encounter :=
      match pick with
      | 0 => Some Gambler
      | 1 => Some Witch
      | 2 => Some GhostlyMaiden
      | _ => None
      end in
    match encounter with
    | Some encounter => set_in_encounter game (Some encounter)
    | None => game
    end
  else game.

(* ------------------------------------------------------------------ *)
(** ** [command.rs] *)

(** The errors the commands distinguish: [character::Dead], found by
    [err.downcast_ref::<character::Dead>()], and any other error, known by
    its message. *)
Inductive Error := Dead | Msg (message : string).

(** [anyhow::Result<()>]. *)
Inductive Outcome := Ok | Err (e : Error).

(** [i32] arithmetic.  [i32_arith build z] is the result of an [i32]
    addition, subtraction or multiplication whose exact value is [z]: [z]
    itself when it fits; otherwise a panic ([None]) in a debug build
    ([overflow-checks]) and the value wrapped modulo [2^32] in a release
    build. *)
Definition i32_min : Z := -2147483648.
Definition i32_max : Z := 2147483647.

Definition in_i32 (z : Z) : bool := (i32_min <=? z) && (z <=? i32_max).

Definition wrap_i32 (z : Z) : Z := (z - i32_min) mod 4294967296 + i32_min.

Inductive Build := Debug | Release.

Definition i32_arith (build : Build) (z : Z) : option Z :=
  if in_i32 z then Some z
  else
    match build with
    | Debug => None
    | Release => Some (wrap_i32 z)
    end.

(** [bet]; [roll] is the result of [random().range(2)]; [None] is the
    overflow panic of [game.gold += amount] or [game.gold -= amount]. *)
Definition bet (build : Build) (roll : Z) (game : Game) (amount : Z)
  : option (Game * Outcome) :=
  match in_encounter game with
  | Some Gambler =>
      if amount >? gold game then
        Some (game, Err (Msg "You don't have that much gold to bet."))
      else
        let new_gold :=
          if roll =? 0 then i32_arith build (gold game + amount)
          else i32_arith build (gold game - amount) in
        match new_gold with
        | None => None
        | Some new_gold => Some (set_in_encounter (set_gold game new_gold) None, Ok)
        end
  | _ => Some (game, Err (Msg "There is no one to bet with here."))
  end.

(** [brew]; [add_item] is [Game::add_item] (game.rs is not part of the
    sources), taken as an arbitrary update of the game. *)
Definition brew (add_item : Item -> Game -> Game) (game : Game) : Game * Outcome :=
  match in_encounter game with
  | Some Witch =>
      let potion := Potion (level (player game)) in
      let game := add_item potion game in
      (set_in_encounter game None, Ok)
  | _ => (game, Err (Msg "There is no witch here to brew a potion."))
  end.

(** [listen]; [roll] is the result of [random().range(3)]; the
    [unreachable!()] arm is a panic ([None]). *)
Definition listen (roll : Z) (game : Game) : option (Game * Outcome) :=
  match in_encounter game with
  | Some GhostlyMaiden =>
      let lore :=
        match roll with
        | 0 => Some "She whispers of a hidden treasure in a nearby cave."
        | 1 => Some "She speaks of a great evil that slumbers deep within the earth."
        | 2 => Some "She warns of a powerful dragon that guards the mountain pass."
        | _ => None
        end in
      match lore with
      | None => None
      | Some _ => Some (set_in_encounter game None, Ok)
      end
  | _ => Some (game, Err (Msg "There is no one to listen to here."))
  end.

(** The error handling shared by [attack], [flee], [bribe], [use_skill] and
    [change_dir]: on [character::Dead], [game.reset(); bail!("")]; any other
    error is returned as it is. *)
Definition reset_on_dead (reset : Game -> Game) (result : Game * Outcome)
  : Game * Outcome :=
  match result with
  | (game, Err err) =>
      match err with
      | Dead => (reset game, Err (Msg ""))
      | _ => (game, Err err)
      end
  | (game, Ok) => (game, Ok)
  end.

(** The game operations these commands wrap (game.rs is not part of the
    sources): each maps the game to the updated game and its result. *)
Record GameOps := mkGameOps {
  battle_round : Game -> Game * Outcome;
  player_flee : Game -> Game * Outcome;
  player_bribe : Game -> Game * Outcome;
  game_use_skill : string -> Game -> Game * Outcome;
  visit : Location -> Game -> Game * Outcome;
  go_to : Location -> Game -> Game * Outcome;
  reset : Game -> Game
}.

(** [attack]. *)
Definition attack (ops : GameOps) (game : Game) : Game * Outcome :=
  reset_on_dead (reset ops) (battle_round ops game).

(** [flee]. *)
Definition flee (ops : GameOps) (game : Game) : Game * Outcome :=
  reset_on_dead (reset ops) (player_flee ops game).

(** [bribe]. *)
Definition bribe (ops : GameOps) (game : Game) : Game * Outcome :=
  reset_on_dead (reset ops) (player_bribe ops game).

(** [use_skill]. *)
Definition use_skill (ops : GameOps) (game : Game) (skill_name : string)
  : Game * Outcome :=
  reset_on_dead (reset ops) (game_use_skill ops skill_name game).

(** [change_dir]; [location_from] is [Location::from], whose error the [?]
    returns before anything else happens. *)
Definition change_dir (ops : GameOps) (location_from : string -> Location + string)
  (game : Game) (dest : string) (force : bool) : Game * Outcome :=
  match location_from dest with
  | inr msg => (game, Err (Msg msg))
  | inl dest =>
      let result := if force then visit ops dest game else go_to ops dest game in
      reset_on_dead (reset ops) result
  end.

(** [battle]; [None] is a panic inside [enemy::spawn]. *)
Definition battle (cat : Catalog) (r : Rolls) (game : Game) : option (Game * Outcome) :=
  match in_combat game with
  | Some _ => Some (game, Err (Msg "Already in combat."))
  | None =>
      match spawn cat r game with
      | None => None
      | Some (Some enemy) => Some (set_in_combat game (Some enemy), Ok)
      | Some None => Some (game, Ok)
      end
  end.

(* ------------------------------------------------------------------ *)
(** ** [quest/defeat_guardian.rs] and [quest/find_amulet.rs] *)

(** [item::key::Key], the variants the quests compare against. *)
Inductive Key := KPotion | KAmulet | KOther.

(** [quest::Event]: the payload the two quests read ([enemy] of
    [BattleWon], [item] of [ItemAdded]); every other event is [OtherEvent]. *)
Inductive Event :=
| BattleWon (enemy : Character)
| ItemAdded (item : Key)
| OtherEvent.

(** The two quests of these files, each with its [finished] flag (the
    [#[typetag::serde] impl Quest] dispatch as a closed sum). *)
Inductive Quest :=
| DefeatGuardian (finished : bool)
| FindAmulet (finished : bool).

Definition finished (q : Quest) : bool :=
  match q with DefeatGuardian f | FindAmulet f => f end.

Definition description (q : Quest) : string :=
  match q with
  | DefeatGuardian _ => "Defeat the Guardian."
  | FindAmulet _ => "Find the Amulet of Power."
  end.

(** [Quest::handle]: the updated quest and the returned [self.finished]. *)
Definition handle (q : Quest) (event : Event) : Quest * bool :=
  match q with
  | DefeatGuardian f =>
      let f :=
        match event with
        | BattleWon enemy => if String.eqb (Character_name enemy) "guardian" then true else f
        | _ => f
        end in
      (DefeatGuardian f, f)
  | FindAmulet f =>
      let f :=
        match event with
        | ItemAdded KAmulet => true
        | _ => f
        end in
      (FindAmulet f, f)
  end.

(** Delivering a sequence of events to one quest: the values returned by
    the successive [handle] calls and the final quest. *)
Fixpoint handle_all (q : Quest) (events : list Event) : list bool * Quest :=
  match events with
  | [] => ([], q)
  | e :: rest =>
      let (q', b) := handle q e in
      let (bs, qf) := handle_all q' rest in
      (b :: bs, qf)
  end.

(* ------------------------------------------------------------------ *)
(** ** The other commands of [command.rs] and the save decision of
    [main.rs] *)

(** [command::Command]. *)
Module Command.
End Command.



(** [command::class]; [change_class] is [Character::change_class]
    (character/mod.rs is not part of the sources), [None] for an unknown
    class name; [to_lowercase] is Rust's [str::to_lowercase] (the Unicode
    lower-case mapping), taken as a parameter. *)
Definition class_cmd (to_lowercase : string -> string)
  (change_class : Character -> string -> option Character)
  (game : Game) (class_name : option string) : Game * Outcome :=
  if negb (is_home (location game)) then
    (game, Err (Msg "Class change is only allowed at home."))
  else
    match class_name with
    | Some class_name =>
        let class_name := to_lowercase class_name in
        match change_class (player game) class_name with
        | Some p =>
            ({| player := p; location := location game; quest_list := quest_list game;
                gold := gold game; in_combat := in_combat game;
                in_encounter := in_encounter game |}, Ok)
        | None => (game, Err (Msg "Unknown class name."))
        end
    | None => (game, Ok)
    end.

(** The parse loop of [shop]: [keys.push(Key::from(item)?)] for each name,
    stopping at the first name [Key::from] rejects. *)
Fixpoint parse_keys (key_from : string -> Key + string) (items : list string)
  : list Key + string :=
  match items with
  | [] => inl []
  | item :: rest =>
      match key_from item with
      | inr msg => inr msg
      | inl key =>
          match parse_keys key_from rest with
          | inr msg => inr msg
          | inl keys => inl (key :: keys)
          end
      end
  end.

(** [command::shop]; [list] and [buy] are [item::shop::list] and
    [item::shop::buy] (item/shop.rs is not part of the sources). *)
Definition shop (shop_list : Game -> Game * Outcome)
  (shop_buy : Game -> list Key -> Game * Outcome) (key_from : string -> Key + string) (game : Game) (items : list string)
  : Game * Outcome :=
  match items with
  | [] => shop_list game
  | _ =>
      match parse_keys key_from items with
      | inr msg => (game, Err (Msg msg))
      | inl keys => shop_buy game keys
      end
  end.

(** The loop of [use_item]: each name is parsed and used in turn; the first
    error is returned, after the effects of the items used before it. *)
Fixpoint use_items (key_from : string -> Key + string)
  (game_use_item : Key -> Game -> Game * Outcome) (game : Game) (items : list string)
  : Game * Outcome :=
  match items with
  | [] => (game, Ok)
  | item_name :: rest =>
      match key_from item_name with
      | inr msg => (game, Err (Msg msg))
      | inl key =>
          match game_use_item key game with
          | (game, Err err) => (game, Err err)
          | (game, Ok) => use_items key_from game_use_item game rest
          end
      end
  end.

(** [command::use_item]; [game_use_item] is [Game::use_item]; an empty
    list only prints the inventory. *)
Definition use_item (key_from : string -> Key + string)
  (game_use_item : Key -> Game -> Game * Outcome) (game : Game) (items : list string)
  : Game * Outcome :=
  match items with
  | [] => (game, Ok)
  | _ => use_items key_from game_use_item game items
  end.

Definition set_player (g : Game) (p : Character) : Game :=
  {| player := p; location := location g; quest_list := quest_list g;
     gold := gold g; in_combat := in_combat g; in_encounter := in_encounter g |}.

(** [command::debug_command] ([idkfa]); [reset] is [Game::reset],
    [add_experience] and [xp_for_next] the [Character] methods
    (game.rs and character/mod.rs are not part of the sources).  [None] is
    the overflow panic of [5000 * level].  The loop [for _ in 1..level] runs
    [level - 1] times, none when [level <= 1]. *)
Definition debug_command (build : Build) (reset : Game -> Game)
  (add_experience : Character -> Z -> Character) (xp_for_next : Character -> Z)
  (game : Game) (lvl : Z) : option Game :=
  let game := reset game in
  match i32_arith build (5000 * lvl) with
  | None => None
  | Some new_gold =>
      let game := set_gold game new_gold in
      Some (Nat.iter (Z.to_nat (lvl - 1))
        (fun game => set_player game (add_experience (player game) (xp_for_next (player game))))
        game)
  end.

(* ------------------------------------------------------------------ *)
(** ** A small class table and game, used by the examples *)

Definition warrior := mkClass "warrior" Player (50, 10) (12, 3) (10, 2).
Definition guardian := mkClass "guardian" Player (200, 20) (30, 5) (15, 2).
Definition rat := mkClass "rat" Common (15, 5) (5, 2) (16, 2).
Definition rat_king := mkClass "rat king" Rare (40, 10) (10, 3) (12, 2).
Definition rat_lord := mkClass "rat lord" Legendary (90, 15) (20, 4) (14, 2).
Definition orc := mkClass "orc" Common (35, 8) (9, 3) (8, 2).

Definition example_catalog : Catalog :=
  {| player_first := Some warrior;
     player_by_name := fun n =>
       if String.eqb n "guardian" then Some guardian
       else if String.eqb n "warrior" then Some warrior
       else None;
     enemies := [rat; orc; rat_king; rat_lord] |}.

Definition hero (lvl : Z) (l r : option Ring) : Character :=
  mkCharacter warrior lvl l r.

Definition example_game (p : Character) (loc : Location)
  (quests : list (bool * string)) : Game :=
  mkGame p loc quests 100 None None.

Definition plain_rolls (pick : nat) : Rolls :=
  mkRolls true false false pick (fun lvl => lvl).

Example enemy_groups_example :
  enemy_groups (enemies example_catalog)
  = [("rat", [rat; rat_king; rat_lord]); ("orc", [orc])].
Proof. reflexivity. Qed.

(** The level assertions of [test_enemy_level], with a level-1 hero. *)
Example test_enemy_level_example :
  map (fun '(lvl, d) =>
         option_map snd (spawn_random (enemies example_catalog) 0 (hero lvl None None) d))
      [(1, 1); (1, 2); (1, 3); (1, 10); (5, 1); (5, 2); (5, 3); (5, 10);
       (10, 1); (10, 2); (10, 3); (10, 10)]
  = map Some [1; 1; 2; 9; 1; 1; 2; 9; 1; 2; 3; 10].
Proof. reflexivity. Qed.

Example choose_variant_example :
  map (fun lvl => choose_variant lvl [rat; rat_king; rat_lord]) [0; 1; 5; 10]
  = [Some rat; Some rat; Some rat_king; Some rat_lord].
Proof. reflexivity. Qed.

(* ------------------------------------------------------------------ *)
(** ** Lemmas on the families and on [max_by_key] *)

(** A well-formed map of families: every family is non-empty and holds
    only variants whose base name is its key. *)
Definition families_ok (groups : list (string * list Class)) : Prop :=
  forall k grp, In (k, grp) groups ->
    grp <> [] /\ Forall (fun e => base_name (name e) = k) grp.

Lemma push_entry_ok (groups : list (string * list Class)) (k : string) (e : Class) :
  families_ok groups -> base_name (name e) = k -> families_ok (push_entry k e groups).
Proof.
  unfold families_ok.
  induction groups as [|[k0 es] rest IH]; intros Hok He k' grp Hin; simpl in Hin.
  - destruct Hin as [Heq|[]]. injection Heq as <- <-.
    split; [discriminate | constructor; [assumption | constructor]].
  - destruct (String.eqb k k0) eqn:Hk.
    + apply String.eqb_eq in Hk. subst k0.
      destruct Hin as [Heq|Hin].
      * injection Heq as <- <-.
        destruct (Hok k es (or_introl eq_refl)) as [_ Hall].
        split; [destruct es; discriminate |].
        apply Forall_app; split; [assumption | constructor; [assumption | constructor]].
      * apply (Hok k' grp (or_intror Hin)).
    + destruct Hin as [Heq|Hin].
      * injection Heq as <- <-. apply (Hok k0 es (or_introl eq_refl)).
      * apply (IH (fun k2 g2 H => Hok k2 g2 (or_intror H)) He k' grp Hin).
Qed.

Lemma enemy_groups_ok (enemies : list Class) : families_ok (enemy_groups enemies).
Proof.
  unfold enemy_groups.
  assert (Hgen : forall acc, families_ok acc ->
            families_ok (fold_left (fun groups e => push_entry (base_name (name e)) e groups)
                                   enemies acc)).
  { induction enemies as [|e rest IH]; intros acc Hacc; simpl.
    - assumption.
    - apply IH, push_entry_ok; [assumption | reflexivity]. }
  apply Hgen. intros k grp [].
Qed.

Lemma max_by_hp_fold (l : list Class) (a : Class) :
  exists m,
    fold_left
      (fun acc e =>
         match acc with
         | None => Some e
         | Some m => if fst (hp m) >? fst (hp e) then Some m else Some e
         end) l (Some a) = Some m
    /\ (m = a \/ In m l)
    /\ fst (hp a) <= fst (hp m)
    /\ (forall e, In e l -> fst (hp e) <= fst (hp m)).
Proof.
  revert a. induction l as [|e rest IH]; intros a; simpl.
  - exists a. repeat split; [left; reflexivity | lia | intros e []].
  - set (a' := if fst (hp a) >? fst (hp e) then a else e).
    destruct (IH a') as (m & Hm & Hin & Hle & Hall).
    assert (Ha : fst (hp a) <= fst (hp a') /\ fst (hp e) <= fst (hp a')).
    { unfold a'. destruct (fst (hp a) >? fst (hp e)) eqn:Hc;
        rewrite Z.gtb_ltb in Hc; [apply Z.ltb_lt in Hc | apply Z.ltb_ge in Hc]; lia. }
    exists m. split.
    { rewrite <- Hm. unfold a'. destruct (fst (hp a) >? fst (hp e)); reflexivity. }
    split; [| split].
    + destruct Hin as [->|Hin]; [| right; right; exact Hin].
      unfold a'. destruct (fst (hp a) >? fst (hp e)); [left | right; left]; reflexivity.
    + lia.
    + intros x [<-|Hx]; [lia | apply Hall, Hx].
Qed.

Lemma max_by_hp_spec (l : list Class) :
  (l = [] -> max_by_hp l = None) /\
  (l <> [] -> exists m, max_by_hp l = Some m /\ In m l
                        /\ forall e, In e l -> fst (hp e) <= fst (hp m)).
Proof.
  split; [intros ->; reflexivity |].
  destruct l as [|a rest]; [contradiction |]. intros _.
  unfold max_by_hp; simpl.
  destruct (max_by_hp_fold rest a) as (m & Hm & Hin & Hle & Hall).
  exists m. split; [exact Hm |]. split.
  - destruct Hin as [->|Hin]; [left; reflexivity | right; exact Hin].
  - intros e [<-|He]; [exact Hle | apply Hall, He].
Qed.

(** The filter of [spawn_random]: the variant's tier requirement is met by
    the player's level. *)
Definition eligible (player_level : Z) (e : Class) : bool :=
  player_level >=? level_req (category e).

Lemma choose_variant_spec (lvl : Z) (grp : list Class) :
  grp <> [] ->
  exists c, choose_variant lvl grp = Some c
    /\ ((exists e, In e grp /\ eligible lvl e = true) ->
          In c grp /\ eligible lvl c = true
          /\ forall e, In e grp -> eligible lvl e = true -> fst (hp e) <= fst (hp c))
    /\ ((forall e, In e grp -> eligible lvl e = false) -> Some c = hd_error grp).
Proof.
  intros Hne. unfold choose_variant.
  change (fun e => lvl >=? level_req (category e)) with (eligible lvl).
  destruct (max_by_hp_spec (filter (eligible lvl) grp)) as [Hnil Hcons].
  destruct (filter (eligible lvl) grp) as [|x xs] eqn:Hf.
  - rewrite Hnil by reflexivity.
    destruct grp as [|g gs]; [contradiction |].
    exists g. split; [reflexivity |]. split; [| intros _; reflexivity].
    intros (e & He & Hel).
    assert (Hin : In e (filter (eligible lvl) (g :: gs))) by (apply filter_In; auto).
    rewrite Hf in Hin. destruct Hin.
  - destruct (Hcons ltac:(discriminate)) as (m & Hm & Hin & Hmax).
    rewrite Hm. exists m. split; [reflexivity |].
    rewrite <- Hf in Hin. apply filter_In in Hin as [Hin Hel].
    split.
    + intros _. split; [exact Hin | split; [exact Hel |]].
      intros e He Hele. apply Hmax. rewrite <- Hf. apply filter_In; auto.
    + intros Hall. rewrite Hall in Hel by exact Hin. discriminate.
Qed.

Lemma nth_family_ok (enemies : list Class) (pick : nat) (k : string) (grp : list Class) :
  nth_error (enemy_groups enemies) pick = Some (k, grp) ->
  grp <> [] /\ Forall (fun e => base_name (name e) = k) grp.
Proof.
  intros H. apply (enemy_groups_ok enemies). eapply nth_error_In. exact H.
Qed.

(* ------------------------------------------------------------------ *)
(** ** The default random spawn *)

(** C1: whichever family is picked, the level chosen by [spawn_random] for
    a player of level [L] at distance length [D] is
    [max(L / 10 + D - 1, 1)], with [/] truncating. *)
Theorem spawn_random_level (enemies : list Class) (pick : nat) (player : Character)
  (d : Z) (Hpick : (pick < length (enemy_groups enemies))%nat) :
  exists enemy,
    spawn_random enemies pick player d
    = Some (enemy, Z.max (Z.quot (level player) 10 + d - 1) 1).
Proof.
  unfold spawn_random.
  destruct (nth_error (enemy_groups enemies) pick) as [[k grp]|] eqn:Hn.
  - destruct (nth_family_ok enemies pick k grp Hn) as [Hne _].
    destruct (choose_variant_spec (level player) grp Hne) as (c & Hc & _).
    rewrite Hc. exists c. reflexivity.
  - apply nth_error_None in Hn. lia.
Qed.

Lemma spawn_random_level_witness :
  (0 < length (enemy_groups (enemies example_catalog)))%nat
  /\ exists enemy,
       spawn_random (enemies example_catalog) 0 (hero 10 None None) 2
       = Some (enemy, Z.max (Z.quot (level (hero 10 None None)) 10 + 2 - 1) 1).
Proof.
  split; [vm_compute; lia |].
  apply (spawn_random_level (enemies example_catalog) 0 (hero 10 None None) 2).
  vm_compute. lia.
Defined.

(** The four cases the spec lists for the formula. *)
Example spawn_random_level_cases :
  map (fun '(l, d) => Z.max (Z.quot l 10 + d - 1) 1) [(0, 1); (0, 10); (10, 10); (10, 2)]
  = [1; 9; 10; 2].
Proof. reflexivity. Qed.

(** C6: in the picked family (whose variants all share its base name), the
    filter keeps exactly the variants whose tier requirement (Common 1,
    Rare 5, Legendary 10, any other tier 1) the player's level meets; the
    variant chosen is an eligible one with the highest base health among
    the eligible ones, and the family's first variant when none is
    eligible. *)
Theorem spawn_random_variant (enemies : list Class) (pick : nat) (player : Character)
  (d : Z) (k : string) (grp : list Class)
  (Hgrp : nth_error (enemy_groups enemies) pick = Some (k, grp)) :
  level_req Common = 1 /\ level_req Rare = 5 /\ level_req Legendary = 10
  /\ level_req Player = 1
  /\ grp <> [] /\ Forall (fun e => base_name (name e) = k) grp
  /\ exists enemy,
       spawn_random enemies pick player d
       = Some (enemy, Z.max (Z.quot (level player) 10 + d - 1) 1)
       /\ ((exists e, In e grp /\ eligible (level player) e = true) ->
             In enemy grp /\ eligible (level player) enemy = true
             /\ forall e, In e grp -> eligible (level player) e = true ->
                          fst (hp e) <= fst (hp enemy))
       /\ ((forall e, In e grp -> eligible (level player) e = false) ->
             Some enemy = hd_error grp).
Proof.
  destruct (nth_family_ok enemies pick k grp Hgrp) as [Hne Hall].
  do 4 (split; [reflexivity |]).
  split; [exact Hne |]. split; [exact Hall |].
  destruct (choose_variant_spec (level player) grp Hne) as (c & Hc & H1 & H2).
  exists c. unfold spawn_random. rewrite Hgrp, Hc. auto.
Qed.

Lemma spawn_random_variant_witness :
  nth_error (enemy_groups (enemies example_catalog)) 0 = Some ("rat", [rat; rat_king; rat_lord])
  /\ level_req Common = 1 /\ level_req Rare = 5 /\ level_req Legendary = 10
  /\ level_req Player = 1
  /\ [rat; rat_king; rat_lord] <> []
  /\ Forall (fun e => base_name (name e) = "rat") [rat; rat_king; rat_lord]
  /\ exists enemy,
       spawn_random (enemies example_catalog) 0 (hero 6 None None) 4
       = Some (enemy, Z.max (Z.quot (level (hero 6 None None)) 10 + 4 - 1) 1)
       /\ ((exists e, In e [rat; rat_king; rat_lord]
                      /\ eligible (level (hero 6 None None)) e = true) ->
             In enemy [rat; rat_king; rat_lord]
             /\ eligible (level (hero 6 None None)) enemy = true
             /\ forall e, In e [rat; rat_king; rat_lord] ->
                  eligible (level (hero 6 None None)) e = true ->
                  fst (hp e) <= fst (hp enemy))
       /\ ((forall e, In e [rat; rat_king; rat_lord] ->
                      eligible (level (hero 6 None None)) e = false) ->
             Some enemy = hd_error [rat; rat_king; rat_lord]).
Proof.
  split; [reflexivity |].
  apply (spawn_random_variant (enemies example_catalog) 0 (hero 6 None None) 4 "rat").
  reflexivity.
Defined.

(* ------------------------------------------------------------------ *)
(** ** Special spawns and evasion *)

(** C2: a player wearing the Ruling ring in either slot, at distance length
    at least 100, makes [spawn_gorthaur] fire: the first player class of the
    catalog renamed "gorthaur", with doubled base health and doubled base
    strength (growth and speed kept), category Legendary, at the player's
    level; [spawn] takes that pair whenever the guardian rule does not
    apply. *)
Theorem spawn_gorthaur_fires (cat : Catalog) (p : Character) (loc : Location)
  (c0 : Class) (Hfirst : player_first cat = Some c0)
  (Hring : left_ring p = Some Ruling \/ right_ring p = Some Ruling)
  (Hd : 100 <= distance_len loc) :
  exists c,
    spawn_gorthaur cat p loc = Some (Some (c, level p))
    /\ name c = "gorthaur" /\ category c = Legendary
    /\ hp c = (fst (hp c0) * 2, snd (hp c0))
    /\ strength c = (fst (strength c0) * 2, snd (strength c0))
    /\ speed c = speed c0
    /\ forall r g, player g = p -> location g = loc ->
         guardian_quest_unlocked (quest_list g) = false ->
         spawn_choice cat r g = Some (c, level p).
Proof.
  assert (Hw : (slot_is (left_ring p) Ruling || slot_is (right_ring p) Ruling) = true).
  { destruct Hring as [H|H]; rewrite H; simpl;
      [reflexivity | destruct (left_ring p) as [[]|]; reflexivity]. }
  assert (Hg : spawn_gorthaur cat p loc =
    Some (Some ({| name := "gorthaur"; category := Legendary;
                   hp := (fst (hp c0) * 2, snd (hp c0));
                   strength := (fst (strength c0) * 2, snd (strength c0));
                   speed := speed c0 |}, level p))).
  { unfold spawn_gorthaur. rewrite Hw.
    replace (100 <=? distance_len loc) with true by (symmetry; apply Z.leb_le; lia).
    simpl. rewrite Hfirst. reflexivity. }
  eexists. split; [exact Hg |].
  repeat split.
  intros r g <- <- Hq. unfold spawn_choice. rewrite Hq. simpl. rewrite Hg. reflexivity.
Qed.

Lemma spawn_gorthaur_fires_witness :
  player_first example_catalog = Some warrior
  /\ (left_ring (hero 12 (Some Void) (Some Ruling)) = Some Ruling
      \/ right_ring (hero 12 (Some Void) (Some Ruling)) = Some Ruling)
  /\ 100 <= distance_len (mkLocation false false 120)
  /\ exists c,
    spawn_gorthaur example_catalog (hero 12 (Some Void) (Some Ruling))
      (mkLocation false false 120) = Some (Some (c, 12))
    /\ name c = "gorthaur" /\ category c = Legendary
    /\ hp c = (fst (hp warrior) * 2, snd (hp warrior))
    /\ strength c = (fst (strength warrior) * 2, snd (strength warrior))
    /\ speed c = speed warrior
    /\ forall r g, player g = hero 12 (Some Void) (Some Ruling) ->
         location g = mkLocation false false 120 ->
         guardian_quest_unlocked (quest_list g) = false ->
         spawn_choice example_catalog r g = Some (c, 12).
Proof.
  split; [reflexivity |]. split; [right; reflexivity |]. split; [simpl; lia |].
  apply (spawn_gorthaur_fires example_catalog (hero 12 (Some Void) (Some Ruling))
           (mkLocation false false 120) warrior); [reflexivity | right; reflexivity | simpl; lia].
Defined.

(** C5: while the quest "Defeat the Guardian." is listed as not completed
    and the distance length exceeds 10, an appearing enemy (evasion off) is
    the guardian class at the player's level + 5, whatever the other rolls,
    rings and location; [spawn] then applies the [enemy_level] jitter to
    that level. *)
Theorem spawn_guardian (cat : Catalog) (r : Rolls) (g : Game) (gc : Class)
  (Hcat : player_by_name cat "guardian" = Some gc)
  (Hev : enemies_evaded (player g) = false)
  (Happ : appear r = true)
  (Hq : In (false, "Defeat the Guardian.") (quest_list g))
  (Hd : 10 < distance_len (location g)) :
  spawn_choice cat r g = Some (gc, level (player g) + 5)
  /\ spawn cat r g = Some (Some (Character_new gc (enemy_level r (level (player g) + 5)))).
Proof.
  assert (Hu : guardian_quest_unlocked (quest_list g) = true).
  { apply existsb_exists. exists (false, "Defeat the Guardian."). split; [exact Hq | reflexivity]. }
  assert (Hc : spawn_choice cat r g = Some (gc, level (player g) + 5)).
  { unfold spawn_choice. rewrite Hu.
    replace (distance_len (location g) >? 10) with true
      by (symmetry; rewrite Z.gtb_ltb; apply Z.ltb_lt; lia).
    simpl. rewrite Hcat. reflexivity. }
  split; [exact Hc |].
  unfold spawn. rewrite Hev, Happ, Hc. reflexivity.
Qed.

Lemma spawn_guardian_witness :
  let g := example_game (hero 3 (Some Ruling) None) (mkLocation false false 150)
             [(true, "Find the Amulet of Power."); (false, "Defeat the Guardian.")] in
  let r := mkRolls true true true 1 (fun l => l - 1) in
  spawn_choice example_catalog r g = Some (guardian, 8)
  /\ spawn example_catalog r g = Some (Some (Character_new guardian 7)).
Proof.
  intros g r.
  apply (spawn_guardian example_catalog r g guardian).
  all: first [reflexivity | simpl; tauto | simpl; lia].
Defined.

(** C7: when either ring slot holds the Evade ring, [spawn] returns no
    enemy, whatever the rolls (the appearance roll included), the distance,
    the quests and the catalog. *)
Theorem spawn_evaded (cat : Catalog) (r : Rolls) (g : Game)
  (Hev : left_ring (player g) = Some Evade \/ right_ring (player g) = Some Evade) :
  spawn cat r g = Some None.
Proof.
  unfold spawn, enemies_evaded.
  destruct Hev as [H|H]; rewrite H; simpl;
    [reflexivity | destruct (left_ring (player g)) as [[]|]; reflexivity].
Qed.

Lemma spawn_evaded_witness :
  spawn example_catalog (plain_rolls 0)
    (example_game (hero 4 (Some Void) (Some Evade)) (mkLocation false false 40) [])
  = Some None.
Proof.
  apply spawn_evaded. right. reflexivity.
Defined.

(** The ring sequence of [test_run_ring]: Evade, then Void, then Void again
    (each equip pushing the previous right ring to the left slot). *)
Example test_run_ring_example :
  map (fun '(l, r) =>
         match spawn example_catalog (plain_rolls 0)
                 (example_game (hero 1 l r) (mkLocation false false 1) []) with
         | Some (Some _) => true
         | _ => false
         end)
      [(None, None); (None, Some Evade); (Some Evade, Some Void); (Some Void, Some Void)]
  = [true; false; false; true].
Proof. reflexivity. Qed.

(* ------------------------------------------------------------------ *)
(** ** The encounter slots *)

(** C3, the claim as stated fails: starting from a game with neither a
    combat nor an NPC encounter, an NPC spawn (a Gambler) followed by the
    [battle] command leaves both a combat and the NPC encounter active. *)
Lemma battle_during_npc_encounter :
  let g0 := example_game (hero 1 None None) (mkLocation false false 3) [] in
  let g1 := npc_spawn true 0 g0 in
  in_combat g0 = None /\ in_encounter g0 = None
  /\ exists g2, battle example_catalog (plain_rolls 0) g1 = Some (g2, Ok)
                /\ in_combat g2 <> None /\ in_encounter g2 = Some Gambler.
Proof.
  intros g0 g1. split; [reflexivity |]. split; [reflexivity |].
  eexists. split; [reflexivity |]. split; [simpl; discriminate | reflexivity].
Qed.

(** C3, as the code has it: only the combat slot guards [battle], which
    fails while a combat is active and otherwise stores any spawned enemy
    whatever the NPC slot holds; [battle] never changes the NPC slot;
    [npc::spawn], whatever either slot holds, stores the drawn NPC in the
    NPC slot when one appears and otherwise leaves the game unchanged, and
    it never changes the combat slot. *)
Theorem battle_npc_slots (cat : Catalog) (r : Rolls) (g : Game) :
  (in_combat g <> None -> battle cat r g = Some (g, Err (Msg "Already in combat.")))
  /\ (in_combat g = None -> forall enemy, spawn cat r g = Some (Some enemy) ->
        battle cat r g = Some (set_in_combat g (Some enemy), Ok))
  /\ (forall g' o, battle cat r g = Some (g', o) -> in_encounter g' = in_encounter g)
  /\ (forall appear pick, in_combat (npc_spawn appear pick g) = in_combat g)
  /\ (forall appear pick, appear = true -> 0 <= pick < 3 ->
        npc_spawn appear pick g
        = set_in_encounter g (Some (nth (Z.to_nat pick) [Gambler; Witch; GhostlyMaiden] Gambler)))
  /\ (forall appear pick, appear = false \/ pick < 0 \/ 3 <= pick ->
        npc_spawn appear pick g = g).
Proof.
  split; [| split; [| split; [| split; [| split]]]].
  5: { intros appear pick -> Hp. unfold npc_spawn.
       assert (Hc : pick = 0 \/ pick = 1 \/ pick = 2) by lia.
       destruct Hc as [->|[->| ->]]; reflexivity. }
  5: { intros appear pick Hp. unfold npc_spawn.
       destruct Hp as [->|Hp]; [reflexivity |]. destruct appear; [| reflexivity].
       destruct pick as [|p|p]; [lia | | reflexivity].
       destruct p as [p|p|]; [reflexivity | | lia].
       destruct p; [reflexivity | reflexivity | lia]. }
  all: unfold battle.
  - destruct (in_combat g); [reflexivity | contradiction].
  - intros -> enemy ->. reflexivity.
  - intros g' o. destruct (in_combat g).
    + intros H. injection H as <- _. reflexivity.
    + destruct (spawn cat r g) as [[enemy|]|]; intros H; try discriminate;
        injection H as <- _; reflexivity.
  - intros appear pick. unfold npc_spawn.
    destruct appear; [| reflexivity].
    destruct pick as [|[| |]|]; try reflexivity.
    all: repeat (destruct p; try reflexivity).
Qed.

(* ------------------------------------------------------------------ *)
(** ** The NPC verbs *)

Definition gambler_game (gold0 : Z) : Game :=
  set_in_encounter (set_gold (example_game (hero 2 None None) (mkLocation false false 3) [])
                               gold0) (Some Gambler).

(** C4, the claim as stated fails: a bet above the current gold fails and
    the Gambler encounter stays active. *)
Lemma bet_over_gold_keeps_gambler :
  bet Debug 0 (gambler_game 100) 500
  = Some (gambler_game 100, Err (Msg "You don't have that much gold to bet."))
  /\ bet Release 0 (gambler_game 100) 500
     = Some (gambler_game 100, Err (Msg "You don't have that much gold to bet."))
  /\ in_encounter (gambler_game 100) = Some Gambler.
Proof. repeat split; reflexivity. Qed.

(** C4, as the code has it: [brew] on a Witch and [listen] on a Ghostly
    Maiden (any [range(3)] draw) always end the encounter; [bet] on a
    Gambler ends it whenever the amount does not exceed the gold and the
    updated gold fits in an [i32], in either build, and with an amount above
    the gold fails leaving the game, the encounter included, unchanged. *)
Theorem npc_verbs_resolve (g : Game) :
  (in_encounter g = Some Gambler -> forall build roll amount, amount <= gold g ->
     in_i32 (if roll =? 0 then gold g + amount else gold g - amount) = true ->
     exists g', bet build roll g amount = Some (g', Ok) /\ in_encounter g' = None)
  /\ (in_encounter g = Some Gambler -> forall build roll amount, gold g < amount ->
       bet build roll g amount
       = Some (g, Err (Msg "You don't have that much gold to bet.")))
  /\ (in_encounter g = Some Witch -> forall add_item,
       in_encounter (fst (brew add_item g)) = None /\ snd (brew add_item g) = Ok)
  /\ (in_encounter g = Some GhostlyMaiden -> forall roll, 0 <= roll < 3 ->
       exists g', listen roll g = Some (g', Ok) /\ in_encounter g' = None).
Proof.
  unfold bet, brew, listen. split; [| split; [| split]].
  - intros -> build roll amount Hle Hfit.
    replace (amount >? gold g) with false by (symmetry; rewrite Z.gtb_ltb; apply Z.ltb_ge; lia).
    unfold i32_arith.
    destruct (roll =? 0); rewrite Hfit; eexists; split; reflexivity.
  - intros -> build roll amount Hlt.
    replace (amount >? gold g) with true by (symmetry; rewrite Z.gtb_ltb; apply Z.ltb_lt; lia).
    reflexivity.
  - intros -> add_item. split; reflexivity.
  - intros -> roll Hr.
    assert (Hcases : roll = 0 \/ roll = 1 \/ roll = 2) by lia.
    destruct Hcases as [->|[->| ->]]; eexists; split; reflexivity.
Qed.

(** C10, the code diverges from the claim: with no gold, a bet of
    [i32::MIN] passes the gold check, and on a losing draw [0 - i32::MIN]
    overflows: a debug build panics, so the gold never changes, and a
    release build wraps the gold to [i32::MIN] instead of [2^31]. *)
Lemma bet_min_amount_overflows :
  in_encounter (gambler_game 0) = Some Gambler
  /\ gold (gambler_game 0) = 0
  /\ (i32_min >? gold (gambler_game 0)) = false
  /\ bet Debug 1 (gambler_game 0) i32_min = None
  /\ bet Release 1 (gambler_game 0) i32_min
     = Some (set_in_encounter (set_gold (gambler_game 0) i32_min) None, Ok)
  /\ gold (gambler_game 0) - i32_min = 2147483648.
Proof. repeat split; reflexivity. Qed.

(** A bet whose gold update fits in an [i32] adds the amount to the gold
    when [range(2)] draws 0 and subtracts it when it draws 1, changing
    nothing else but clearing the encounter slot; a bet above the gold
    fails and leaves the game unchanged. *)
Theorem bet_outcomes (build : Build) (g : Game) (amount : Z)
  (Hg : in_encounter g = Some Gambler) :
  (amount <= gold g -> in_i32 (gold g + amount) = true ->
     bet build 0 g amount = Some (set_in_encounter (set_gold g (gold g + amount)) None, Ok))
  /\ (amount <= gold g -> in_i32 (gold g - amount) = true ->
     bet build 1 g amount = Some (set_in_encounter (set_gold g (gold g - amount)) None, Ok))
  /\ (gold g < amount -> forall roll,
        bet build roll g amount = Some (g, Err (Msg "You don't have that much gold to bet."))).
Proof.
  unfold bet, i32_arith. rewrite Hg. split; [| split].
  - intros Hle Hfit.
    replace (amount >? gold g) with false by (symmetry; rewrite Z.gtb_ltb; apply Z.ltb_ge; lia).
    simpl. rewrite Hfit. reflexivity.
  - intros Hle Hfit.
    replace (amount >? gold g) with false by (symmetry; rewrite Z.gtb_ltb; apply Z.ltb_ge; lia).
    simpl. rewrite Hfit. reflexivity.
  - intros Hlt roll.
    replace (amount >? gold g) with true by (symmetry; rewrite Z.gtb_ltb; apply Z.ltb_lt; lia).
    reflexivity.
Qed.

Lemma bet_outcomes_witness :
  in_encounter (gambler_game 100) = Some Gambler
  /\ bet Debug 0 (gambler_game 100) 30
     = Some (set_in_encounter (set_gold (gambler_game 100) 130) None, Ok)
  /\ bet Debug 1 (gambler_game 100) 30
     = Some (set_in_encounter (set_gold (gambler_game 100) 70) None, Ok).
Proof.
  destruct (bet_outcomes Debug (gambler_game 100) 30 eq_refl) as [H0 [H1 _]].
  split; [reflexivity |].
  split; [apply H0 | apply H1]; simpl; first [lia | reflexivity].
Defined.

(* ------------------------------------------------------------------ *)
(** ** Quest completion *)

Lemma handle_returns_finished (q : Quest) (e : Event) :
  snd (handle q e) = finished (fst (handle q e)).
Proof. destruct q; reflexivity. Qed.

Lemma handle_keeps_finished (q : Quest) (e : Event) :
  finished q = true -> finished (fst (handle q e)) = true.
Proof.
  destruct q as [f|f]; simpl; intros ->; destruct e as [enemy|[]|]; simpl;
    try reflexivity.
  destruct (String.eqb (Character_name enemy) "guardian"); reflexivity.
Qed.

Lemma handle_all_finished (q : Quest) (events : list Event) (bs : list bool) (qf : Quest) :
  finished q = true -> handle_all q events = (bs, qf) ->
  Forall (fun b => b = true) bs /\ finished qf = true.
Proof.
  revert q bs. induction events as [|e rest IH]; intros q bs Hq Hall; simpl in Hall.
  - injection Hall as <- <-. auto.
  - destruct (handle q e) as [q' b] eqn:Hh.
    destruct (handle_all q' rest) as [bs' qf'] eqn:Hr.
    injection Hall as <- <-.
    assert (Hq' : finished q' = true).
    { pose proof (handle_keeps_finished q e Hq) as H. rewrite Hh in H. exact H. }
    assert (Hb : b = true).
    { pose proof (handle_returns_finished q e) as H. rewrite Hh in H. simpl in H.
      rewrite H. exact Hq'. }
    destruct (IH q' bs' Hq' Hr) as [Hbs Hf].
    split; [constructor; assumption | exact Hf].
Qed.

Lemma handle_all_app (q : Quest) (pre post : list Event) :
  handle_all q (pre ++ post)
  = let (bs1, q1) := handle_all q pre in
    let (bs2, q2) := handle_all q1 post in
    (bs1 ++ bs2, q2)%list.
Proof.
  revert q. induction pre as [|e rest IH]; intros q; simpl.
  - destruct (handle_all q post); reflexivity.
  - destruct (handle q e) as [q' b]. rewrite IH.
    destruct (handle_all q' rest) as [bs1 q1].
    destruct (handle_all q1 post) as [bs2 q2]. reflexivity.
Qed.

(** C8: for both quests, once [handle] returns true on some event of a
    sequence, the flag is set and every later call of [handle], for any
    events, returns true, the final flag included. *)
Theorem quest_completion_monotone (q : Quest) (pre : list Event) (e : Event)
  (post : list Event) (bs1 : list bool) (q1 q2 : Quest)
  (Hpre : handle_all q pre = (bs1, q1)) (Hdone : handle q1 e = (q2, true)) :
  finished q2 = true
  /\ forall bs2 qf, handle_all q2 post = (bs2, qf) ->
       Forall (fun b => b = true) bs2 /\ finished qf = true
       /\ handle_all q (pre ++ e :: post) = ((bs1 ++ true :: bs2)%list, qf).
Proof.
  assert (Hq2 : finished q2 = true).
  { pose proof (handle_returns_finished q1 e) as H. rewrite Hdone in H. simpl in H.
    symmetry. exact H. }
  split; [exact Hq2 |].
  intros bs2 qf Hpost.
  destruct (handle_all_finished q2 post bs2 qf Hq2 Hpost) as [Hbs Hf].
  split; [exact Hbs |]. split; [exact Hf |].
  rewrite handle_all_app, Hpre. simpl. rewrite Hdone, Hpost. reflexivity.
Qed.

Definition guardian_enemy : Character := Character_new guardian 12.

Lemma quest_completion_monotone_witness :
  handle_all (DefeatGuardian false) [ItemAdded KAmulet] = ([false], DefeatGuardian false)
  /\ handle (DefeatGuardian false) (BattleWon guardian_enemy) = (DefeatGuardian true, true)
  /\ finished (DefeatGuardian true) = true
  /\ forall bs2 qf,
       handle_all (DefeatGuardian true) [OtherEvent; BattleWon (Character_new rat 1)]
       = (bs2, qf) ->
       Forall (fun b => b = true) bs2 /\ finished qf = true
       /\ handle_all (DefeatGuardian false)
            ([ItemAdded KAmulet] ++ BattleWon guardian_enemy
               :: [OtherEvent; BattleWon (Character_new rat 1)])
          = (([false] ++ true :: bs2)%list, qf).
Proof.
  split; [reflexivity |]. split; [reflexivity |].
  apply (quest_completion_monotone (DefeatGuardian false) [ItemAdded KAmulet]
           (BattleWon guardian_enemy) [OtherEvent; BattleWon (Character_new rat 1)]
           [false] (DefeatGuardian false) (DefeatGuardian true)); reflexivity.
Defined.

(* ------------------------------------------------------------------ *)
(** ** Death handling in the commands *)

(** How a command [cmd] handles the result of the operation [op] it wraps,
    on the game [g]: a [Dead] error resets the game and reports an error
    (with an empty message); any other error and a success are passed on
    as they are, without reset. *)
Definition resets_only_on_dead (reset : Game -> Game)
  (op cmd : Game -> Game * Outcome) (g : Game) : Prop :=
  (forall g', op g = (g', Err Dead) -> cmd g = (reset g', Err (Msg "")))
  /\ (forall g' err, err <> Dead -> op g = (g', Err err) -> cmd g = (g', Err err))
  /\ (forall g', op g = (g', Ok) -> cmd g = (g', Ok)).

Lemma reset_on_dead_spec (reset : Game -> Game) (op : Game -> Game * Outcome) (g : Game) :
  resets_only_on_dead reset op (fun g => reset_on_dead reset (op g)) g.
Proof.
  unfold resets_only_on_dead, reset_on_dead. split; [| split].
  - intros g' ->. reflexivity.
  - intros g' err Hne ->. destruct err; [contradiction | reflexivity].
  - intros g' ->. reflexivity.
Qed.

(** C9: [attack], [flee], [bribe], [use_skill] and [change_dir] reset the
    game before returning an error exactly when the wrapped game operation
    fails with [Dead]; for [change_dir] the wrapped operation is the parse
    of the destination followed by [visit] (forced) or [go_to]. *)
Theorem dead_triggers_reset (ops : GameOps) (location_from : string -> Location + string)
  (g : Game) (skill_name dest : string) (force : bool) :
  resets_only_on_dead (reset ops) (battle_round ops) (attack ops) g
  /\ resets_only_on_dead (reset ops) (player_flee ops) (flee ops) g
  /\ resets_only_on_dead (reset ops) (player_bribe ops) (bribe ops) g
  /\ resets_only_on_dead (reset ops) (game_use_skill ops skill_name)
       (fun g => use_skill ops g skill_name) g
  /\ resets_only_on_dead (reset ops)
       (fun g => match location_from dest with
                 | inr msg => (g, Err (Msg msg))
                 | inl d => if force then visit ops d g else go_to ops d g
                 end)
       (fun g => change_dir ops location_from g dest force) g.
Proof.
  split; [| split; [| split; [| split]]];
    try apply (reset_on_dead_spec (reset ops)).
  unfold resets_only_on_dead, change_dir.
  destruct (location_from dest) as [d|msg].
  - apply (reset_on_dead_spec (reset ops) (fun g => if force then visit ops d g else go_to ops d g)).
  - split; [| split].
    + intros g' H. injection H as _ H. discriminate.
    + intros g' err _ H. exact H.
    + intros g' H. discriminate.
Qed.

(* ------------------------------------------------------------------ *)
(** ** Further properties of the encounter code *)

Lemma push_entry_perm (k : string) (e : Class) (gs : list (string * list Class)) :
  Permutation (concat (map snd (push_entry k e gs))) (concat (map snd gs) ++ [e]).
Proof.
  induction gs as [|[k' es] rest IH]; simpl.
  - apply Permutation_refl.
  - destruct (String.eqb k k'); simpl.
    + rewrite <- !app_assoc. apply Permutation_app_head, Permutation_app_comm.
    + rewrite <- app_assoc. apply Permutation_app_head, IH.
Qed.

Lemma push_entry_keys_in (k : string) (e : Class) (gs : list (string * list Class)) (x : string) :
  In x (map fst (push_entry k e gs)) -> x = k \/ In x (map fst gs).
Proof.
  induction gs as [|[k' es] rest IH]; simpl.
  - intros [->|[]]. left; reflexivity.
  - destruct (String.eqb k k'); simpl.
    + intros H. right. exact H.
    + intros [->|H]; [right; left; reflexivity |].
      destruct (IH H) as [->|H']; [left; reflexivity | right; right; exact H'].
Qed.

Lemma push_entry_nodup (k : string) (e : Class) (gs : list (string * list Class)) :
  NoDup (map fst gs) -> NoDup (map fst (push_entry k e gs)).
Proof.
  induction gs as [|[k' es] rest IH]; simpl; intros Hnd.
  - constructor; [intros [] | constructor].
  - inversion Hnd as [|? ? Hnotin Hrest]; subst.
    destruct (String.eqb k k') eqn:Hk; simpl.
    + constructor; assumption.
    + constructor; [| apply IH, Hrest].
      intros Hin. apply push_entry_keys_in in Hin as [->|Hin]; [| contradiction].
      rewrite String.eqb_refl in Hk. discriminate.
Qed.

(** Every enemy of the catalog lands in exactly one family: the families,
    put end to end, are a permutation of [Class::enemies()], no base name
    keys two families, and each family is non-empty and holds only variants
    of its base name. *)
Theorem enemy_groups_partition (enemies : list Class) :
  Permutation (concat (map snd (enemy_groups enemies))) enemies
  /\ NoDup (map fst (enemy_groups enemies))
  /\ families_ok (enemy_groups enemies).
Proof.
  unfold enemy_groups.
  assert (Hgen : forall acc,
    Permutation (concat (map snd (fold_left (fun groups e => push_entry (base_name (name e)) e groups)
                                             enemies acc)))
                (concat (map snd acc) ++ enemies)
    /\ (NoDup (map fst acc) ->
        NoDup (map fst (fold_left (fun groups e => push_entry (base_name (name e)) e groups)
                                  enemies acc)))).
  { induction enemies as [|e rest IH]; intros acc; simpl.
    - rewrite app_nil_r. split; [apply Permutation_refl | auto].
    - destruct (IH (push_entry (base_name (name e)) e acc)) as [Hp Hn]. split.
      + eapply Permutation_trans; [exact Hp |].
        eapply Permutation_trans; [apply Permutation_app_tail, push_entry_perm |].
        rewrite <- app_assoc. apply Permutation_refl.
      + intros H. apply Hn, push_entry_nodup, H. }
  destruct (Hgen []) as [Hp Hn]. split; [exact Hp |]. split.
  - apply Hn. constructor.
  - apply (enemy_groups_ok enemies).
Qed.

Lemma slot_is_true (s : option Ring) (r : Ring) : slot_is s r = true <-> s = Some r.
Proof.
  split.
  - destruct s as [r'|]; simpl; [| discriminate].
    destruct r', r; simpl; intros H; congruence.
  - intros ->. destruct r; reflexivity.
Qed.

(** With the guardian and the Ruling ring rules off, [spawn] tries the
    shadow, then the dev spawn, then [spawn_random]. *)
Lemma spawn_choice_no_boss (cat : Catalog) (r : Rolls) (g : Game)
  (Hq : guardian_quest_unlocked (quest_list g) = false \/ distance_len (location g) <= 10)
  (Hring : (left_ring (player g) <> Some Ruling /\ right_ring (player g) <> Some Ruling)
           \/ distance_len (location g) < 100) :
  spawn_choice cat r g =
    match spawn_shadow (shadow_roll r) (player g) (location g) with
    | Some p => Some p
    | None =>
        match spawn_dev cat (dev_roll r) (player g) (location g) with
        | None => None
        | Some (Some p) => Some p
        | Some None => spawn_random (enemies cat) (family_pick r) (player g) (distance_len (location g))
        end
    end.
Proof.
  unfold spawn_choice. cbv zeta.
  replace (guardian_quest_unlocked (quest_list g) && (distance_len (location g) >? 10)) with false.
  2:{ symmetry. apply andb_false_iff. destruct Hq as [->|Hd]; [left; reflexivity |].
      right. rewrite Z.gtb_ltb. apply Z.ltb_ge. lia. }
  unfold spawn_gorthaur.
  replace ((slot_is (left_ring (player g)) Ruling || slot_is (right_ring (player g)) Ruling)
           && (100 <=? distance_len (location g))) with false.
  2:{ symmetry. apply andb_false_iff. destruct Hring as [[Hl Hr]|Hd].
      - left. apply orb_false_iff. split.
        + destruct (slot_is (left_ring (player g)) Ruling) eqn:E; [| reflexivity].
          apply slot_is_true in E. contradiction.
        + destruct (slot_is (right_ring (player g)) Ruling) eqn:E; [| reflexivity].
          apply slot_is_true in E. contradiction.
      - right. apply Z.leb_gt. lia. }
  reflexivity.
Qed.

(** Away from home and from the data directory, with the guardian and the
    Ruling ring rules off, the enemy is [spawn_random]'s pick, whatever the
    shadow and dev rolls. *)
Theorem spawn_choice_default (cat : Catalog) (r : Rolls) (g : Game)
  (Hq : guardian_quest_unlocked (quest_list g) = false \/ distance_len (location g) <= 10)
  (Hring : (left_ring (player g) <> Some Ruling /\ right_ring (player g) <> Some Ruling)
           \/ distance_len (location g) < 100)
  (Hhome : is_home (location g) = false) (Hrpg : is_rpg_dir (location g) = false) :
  spawn_choice cat r g
  = spawn_random (enemies cat) (family_pick r) (player g) (distance_len (location g)).
Proof.
  rewrite (spawn_choice_no_boss cat r g Hq Hring).
  unfold spawn_shadow, spawn_dev. rewrite Hhome, Hrpg. reflexivity.
Qed.

Lemma spawn_choice_default_witness :
  let g := example_game (hero 7 (Some Evade) (Some Ruling)) (mkLocation false false 4)
             [(false, "Defeat the Guardian.")] in
  let r := mkRolls true true true 1 (fun l => l) in
  spawn_choice example_catalog r g = Some (orc, 3).
Proof.
  intros g r.
  rewrite (spawn_choice_default example_catalog r g); [reflexivity | | | reflexivity | reflexivity].
  - right. simpl. lia.
  - right. simpl. lia.
Defined.

(** At home, with the guardian and the Ruling ring rules off, a successful
    1-in-10 roll spawns the shadow: the player's own class stats, category
    Rare, at the player's level + 3. *)
Theorem spawn_choice_shadow (cat : Catalog) (r : Rolls) (g : Game)
  (Hq : guardian_quest_unlocked (quest_list g) = false \/ distance_len (location g) <= 10)
  (Hring : (left_ring (player g) <> Some Ruling /\ right_ring (player g) <> Some Ruling)
           \/ distance_len (location g) < 100)
  (Hhome : is_home (location g) = true) (Hroll : shadow_roll r = true) :
  exists c, spawn_choice cat r g = Some (c, level (player g) + 3)
    /\ name c = "shadow" /\ category c = Rare
    /\ hp c = hp (class (player g)) /\ strength c = strength (class (player g))
    /\ speed c = speed (class (player g)).
Proof.
  rewrite (spawn_choice_no_boss cat r g Hq Hring).
  unfold spawn_shadow. rewrite Hhome, Hroll. simpl.
  eexists. split; [reflexivity |]. repeat split.
Qed.

Lemma spawn_choice_shadow_witness :
  let g := example_game (hero 4 None None) (mkLocation true false 0) [] in
  let r := mkRolls true true false 0 (fun l => l) in
  exists c, spawn_choice example_catalog r g = Some (c, 7)
    /\ name c = "shadow" /\ category c = Rare
    /\ hp c = hp warrior /\ strength c = strength warrior /\ speed c = speed warrior.
Proof.
  intros g r.
  apply (spawn_choice_shadow example_catalog r g);
    [left; reflexivity | left; split; discriminate | reflexivity | reflexivity].
Defined.

(** In the game's data directory (not home), with the guardian and the
    Ruling ring rules off, a successful 1-in-10 roll spawns the dev: the
    catalog's first player class with its three base stats halved
    (truncating), category Rare, at the player's level. *)
Theorem spawn_choice_dev (cat : Catalog) (r : Rolls) (g : Game) (c0 : Class)
  (Hq : guardian_quest_unlocked (quest_list g) = false \/ distance_len (location g) <= 10)
  (Hring : (left_ring (player g) <> Some Ruling /\ right_ring (player g) <> Some Ruling)
           \/ distance_len (location g) < 100)
  (Hhome : is_home (location g) = false) (Hrpg : is_rpg_dir (location g) = true)
  (Hroll : dev_roll r = true) (Hfirst : player_first cat = Some c0) :
  exists c, spawn_choice cat r g = Some (c, level (player g))
    /\ name c = "dev" /\ category c = Rare
    /\ hp c = (Z.quot (fst (hp c0)) 2, snd (hp c0))
    /\ strength c = (Z.quot (fst (strength c0)) 2, snd (strength c0))
    /\ speed c = (Z.quot (fst (speed c0)) 2, snd (speed c0)).
Proof.
  rewrite (spawn_choice_no_boss cat r g Hq Hring).
  unfold spawn_shadow, spawn_dev. rewrite Hhome, Hrpg, Hroll, Hfirst. simpl.
  eexists. split; [reflexivity |]. repeat split.
Qed.

Lemma spawn_choice_dev_witness :
  let g := example_game (hero 9 None (Some Ruling)) (mkLocation false true 2) [] in
  let r := mkRolls true true true 0 (fun l => l) in
  exists c, spawn_choice example_catalog r g = Some (c, 9)
    /\ name c = "dev" /\ category c = Rare
    /\ hp c = (25, 10) /\ strength c = (6, 3) /\ speed c = (5, 2).
Proof.
  intros g r.
  apply (spawn_choice_dev example_catalog r g warrior);
    [left; reflexivity | right; simpl; lia | reflexivity | reflexivity | reflexivity
    | reflexivity].
Defined.

(** [spawn] never panics on a catalog that has a player class and the
    guardian class, when [choose] returns one of the families. *)
Theorem spawn_no_panic (cat : Catalog) (r : Rolls) (g : Game) (c0 gc : Class)
  (Hfirst : player_first cat = Some c0)
  (Hguard : player_by_name cat "guardian" = Some gc)
  (Hpick : (family_pick r < length (enemy_groups (enemies cat)))%nat) :
  spawn cat r g <> None.
Proof.
  assert (Hc : spawn_choice cat r g <> None).
  { unfold spawn_choice. cbv zeta.
    destruct (guardian_quest_unlocked (quest_list g) && (distance_len (location g) >? 10)).
    { rewrite Hguard. discriminate. }
    unfold spawn_gorthaur. cbv zeta.
    destruct ((slot_is (left_ring (player g)) Ruling || slot_is (right_ring (player g)) Ruling)
              && (100 <=? distance_len (location g))).
    { rewrite Hfirst. discriminate. }
    destruct (spawn_shadow (shadow_roll r) (player g) (location g)); [discriminate |].
    unfold spawn_dev.
    destruct (is_rpg_dir (location g) && dev_roll r).
    { rewrite Hfirst. discriminate. }
    unfold spawn_random.
    destruct (nth_error (enemy_groups (enemies cat)) (family_pick r)) as [[k grp]|] eqn:Hn.
    - destruct (nth_family_ok (enemies cat) (family_pick r) k grp Hn) as [Hne _].
      destruct (choose_variant_spec (level (player g)) grp Hne) as (c & -> & _).
      discriminate.
    - apply nth_error_None in Hn. lia. }
  unfold spawn.
  destruct (enemies_evaded (player g)); [discriminate |].
  destruct (appear r); [| discriminate].
  destruct (spawn_choice cat r g) as [[c l]|]; [discriminate | contradiction].
Qed.

Lemma spawn_no_panic_witness :
  spawn example_catalog (plain_rolls 1)
    (example_game (hero 3 None None) (mkLocation false false 20) []) <> None.
Proof.
  apply (spawn_no_panic example_catalog (plain_rolls 1) _ warrior guardian);
    [reflexivity | reflexivity | vm_compute; lia].
Defined.

(* ------------------------------------------------------------------ *)
(** ** Further properties of the NPC encounters and quests *)

(** [npc::spawn] changes nothing but the NPC encounter slot: on a
    successful roll with a draw in [0..3) it stores Gambler, Witch or
    Ghostly Maiden (overwriting any active encounter, whatever the combat
    slot holds); otherwise the game is unchanged. *)
Theorem npc_spawn_sets_slot (appear : bool) (pick : Z) (g : Game) :
  (appear = true -> 0 <= pick < 3 ->
     npc_spawn appear pick g
     = set_in_encounter g (Some (nth (Z.to_nat pick) [Gambler; Witch; GhostlyMaiden] Gambler)))
  /\ (appear = false \/ pick < 0 \/ 3 <= pick -> npc_spawn appear pick g = g).
Proof.
  unfold npc_spawn. split.
  - intros -> Hp.
    assert (Hc : pick = 0 \/ pick = 1 \/ pick = 2) by lia.
    destruct Hc as [->|[->| ->]]; reflexivity.
  - intros [->|Hp]; [reflexivity |]. destruct appear; [| reflexivity].
    destruct pick as [|p|p]; [lia | | reflexivity].
    destruct p as [p|p|]; [reflexivity | | lia].
    destruct p; [reflexivity | reflexivity | lia].
Qed.

(** An NPC verb used without its NPC fails with its message and leaves the
    game unchanged. *)
Theorem npc_verbs_mismatch (g : Game) :
  (in_encounter g <> Some Gambler -> forall build roll amount,
     bet build roll g amount = Some (g, Err (Msg "There is no one to bet with here.")))
  /\ (in_encounter g <> Some Witch -> forall add_item,
       brew add_item g = (g, Err (Msg "There is no witch here to brew a potion.")))
  /\ (in_encounter g <> Some GhostlyMaiden -> forall roll,
       listen roll g = Some (g, Err (Msg "There is no one to listen to here."))).
Proof.
  unfold bet, brew, listen.
  split; [| split]; intros H; destruct (in_encounter g) as [[]|]; intros;
    solve [reflexivity | congruence].
Qed.

(** From the unfinished state, DefeatGuardian completes exactly on a won
    battle against an enemy named "guardian" and FindAmulet exactly on the
    amulet being added; [handle] never changes a quest's description. *)
Theorem quest_triggers (e : Event) :
  (snd (handle (DefeatGuardian false) e) = true
     <-> exists enemy, e = BattleWon enemy /\ Character_name enemy = "guardian")
  /\ (snd (handle (FindAmulet false) e) = true <-> e = ItemAdded KAmulet)
  /\ (forall q, description (fst (handle q e)) = description q).
Proof.
  split; [| split].
  - destruct e as [enemy|item|]; simpl.
    + destruct (String.eqb (Character_name enemy) "guardian") eqn:E; split.
      * intros _. exists enemy. split; [reflexivity | apply String.eqb_eq, E].
      * reflexivity.
      * discriminate.
      * intros (en & Hen & Hn). injection Hen as <-.
        apply String.eqb_eq in Hn. congruence.
    + split; intros H; [discriminate | destruct H as (en & Hen & _); discriminate].
    + split; intros H; [discriminate | destruct H as (en & Hen & _); discriminate].
  - destruct e as [enemy|[]|]; simpl; split; intros H; congruence.
  - intros []; reflexivity.
Qed.

(* ------------------------------------------------------------------ *)
(** ** Further properties of the command layer *)


(** Class change: refused away from home whatever the name, with the game
    unchanged; at home the name is lowercased before the lookup, an
    unknown name is refused with the game unchanged and a known one
    replaces the player. *)
Theorem class_cmd_guards (to_lowercase : string -> string)
  (change_class : Character -> string -> option Character) (g : Game) :
  (is_home (location g) = false -> forall class_name,
     class_cmd to_lowercase change_class g class_name
     = (g, Err (Msg "Class change is only allowed at home.")))
  /\ (is_home (location g) = true -> forall n,
       change_class (player g) (to_lowercase n) = None ->
       class_cmd to_lowercase change_class g (Some n) = (g, Err (Msg "Unknown class name.")))
  /\ (is_home (location g) = true -> forall n p,
       change_class (player g) (to_lowercase n) = Some p ->
       class_cmd to_lowercase change_class g (Some n) = (set_player g p, Ok)).
Proof.
  unfold class_cmd. split; [| split].
  - intros -> n. reflexivity.
  - intros -> n H. simpl. rewrite H. reflexivity.
  - intros -> n p H. simpl. rewrite H. reflexivity.
Qed.

Lemma parse_keys_app_bad (key_from : string -> Key + string) (pre post : list string)
  (bad msg : string) :
  Forall (fun i => exists k, key_from i = inl k) pre -> key_from bad = inr msg ->
  parse_keys key_from (pre ++ bad :: post) = inr msg.
Proof.
  intros Hpre Hbad. induction Hpre as [|i rest [k Hk] _ IH]; simpl.
  - rewrite Hbad. reflexivity.
  - rewrite Hk, IH. reflexivity.
Qed.

Lemma parse_keys_all (key_from : string -> Key + string) (items : list string)
  (keys : list Key) :
  Forall2 (fun i k => key_from i = inl k) items keys -> parse_keys key_from items = inl keys.
Proof.
  induction 1 as [|i k items' keys' Hk _ IH]; simpl; [reflexivity |].
  rewrite Hk, IH. reflexivity.
Qed.

(** Buying parses every name before buying anything: the first name
    [Key::from] rejects makes the command fail with its error and the game
    unchanged; when all names parse, [shop::buy] gets the keys in order. *)
Theorem shop_parses_before_buying (shop_list : Game -> Game * Outcome)
  (shop_buy : Game -> list Key -> Game * Outcome) (key_from : string -> Key + string)
  (g : Game) :
  (forall pre bad post msg,
     Forall (fun i => exists k, key_from i = inl k) pre -> key_from bad = inr msg ->
     shop shop_list shop_buy key_from g (pre ++ bad :: post) = (g, Err (Msg msg)))
  /\ (forall items keys, items <> [] ->
        Forall2 (fun i k => key_from i = inl k) items keys ->
        shop shop_list shop_buy key_from g items = shop_buy g keys).
Proof.
  split.
  - intros pre bad post msg Hpre Hbad. unfold shop.
    rewrite (parse_keys_app_bad key_from pre post bad msg Hpre Hbad).
    destruct pre; reflexivity.
  - intros items keys Hne Hall. unfold shop.
    rewrite (parse_keys_all key_from items keys Hall).
    destruct items; [contradiction | reflexivity].
Qed.

(** Using several items is not all-or-nothing: using [xs ++ ys] is using
    [xs], then, if that succeeded, [ys] from the resulting game; an error
    stops the loop and keeps the effects of the items used before it. *)
Theorem use_items_app (key_from : string -> Key + string)
  (game_use_item : Key -> Game -> Game * Outcome) (g : Game) (xs ys : list string) :
  use_items key_from game_use_item g (xs ++ ys)
  = match use_items key_from game_use_item g xs with
    | (g1, Ok) => use_items key_from game_use_item g1 ys
    | (g1, Err err) => (g1, Err err)
    end.
Proof.
  revert g. induction xs as [|x rest IH]; intros g; simpl; [reflexivity |].
  destruct (key_from x) as [key|msg]; [| reflexivity].
  destruct (game_use_item key g) as [g' [|err]]; [apply IH | reflexivity].
Qed.




(** [idkfa] with a level whose [5000 * level] leaves the [i32] range
    panics in a debug build and wraps the gold in a release build. *)
Lemma debug_command_overflow :
  debug_command Debug (fun g => g) (fun p _ => p) (fun _ => 0) (gambler_game 0) 500000 = None
  /\ option_map gold
       (debug_command Release (fun g => g) (fun p _ => p) (fun _ => 0) (gambler_game 0) 500000)
     = Some (-1794967296).
Proof. split; vm_compute; reflexivity. Qed.

Lemma reset_on_dead_not_dead (reset : Game -> Game) (res : Game * Outcome) :
  snd (reset_on_dead reset res) <> Err Dead.
Proof.
  destruct res as [g [|[|m]]]; simpl; discriminate.
Qed.

(** No combat command passes a [Dead] error on to its caller (the reset
    replaces it with an empty message), so [run] never sees one from
    them. *)
Theorem commands_never_return_dead (ops : GameOps)
  (location_from : string -> Location + string) (g : Game)
  (skill_name dest : string) (force : bool) :
  snd (attack ops g) <> Err Dead /\ snd (flee ops g) <> Err Dead
  /\ snd (bribe ops g) <> Err Dead /\ snd (use_skill ops g skill_name) <> Err Dead
  /\ snd (change_dir ops location_from g dest force) <> Err Dead.
Proof.
  repeat split; try apply reset_on_dead_not_dead.
  unfold change_dir. destruct (location_from dest); [apply reset_on_dead_not_dead | discriminate].
Qed.
